(** * Reed-Solomon codec and erasure-coded device of longhorn-engine

    A shallow embedding of [pkg/reedsolomon] (Galois field arithmetic,
    matrix kernel, codec) and of the erasure-coding controller, followed
    by the properties of the specification that were checked against it.

    Conventions of the embedding.
    - Go's [int] and [int64] are [Z] with the 64-bit wrap-around written
      [i64]; [poly] (a [uint64]) is a [Z] kept in [0, 2^64) by [u64].
    - A function returning [(T, error)] returns [result T]; a run-time
      panic (index out of range, division by zero, negative [make]) is the
      third outcome [Panic].
    - The backing arrays of the rows of a [[][]poly] live in a [store];
      a matrix is the list of the addresses of its rows.  Functions that
      allocate or write rows run in the state monad [Run].  The outer slice
      of a matrix is only ever written while the matrix is being built,
      so it is carried as a value. *)

From Stdlib Require Import ZArith Lia.
From HB Require Import structures.
From mathcomp Require Import ssreflect ssrfun ssrbool eqtype ssrnat div seq.
From mathcomp Require Import choice fintype bigop ssralg poly.

Set Implicit Arguments.
Unset Strict Implicit.
Unset Printing Implicit Defensive.

(** ** Outcomes of a Go call *)

Inductive error : Type :=
  | ErrDimensionMismatch
  | ErrNoninvertibleMatrix
  | ErrZeroDivision
  | ErrInsufficientFieldSize
  | ErrMisaligned
  | ErrTooFewSlices
  | ErrSliceMismatch
  | ErrNotImplemented
  | ErrBackend.

Inductive result (A : Type) : Type :=
  | Ok (a : A)
  | Err (e : error)
  | Panic.

Arguments Ok {A} a.
Arguments Err {A} e.
Arguments Panic {A}.

Definition rbind {A B : Type} (r : result A) (f : A -> result B) : result B :=
  match r with
  | Ok a => f a
  | Err e => Err e
  | Panic => Panic
  end.

(** ** The store of matrix rows and its monad *)

Definition loc : Type := nat.
Definition store : Type := seq (seq Z).
Definition Run (A : Type) : Type := store -> store * result A.

Definition ret {A : Type} (a : A) : Run A := fun s => (s, Ok a).
Definition fail {A : Type} (e : error) : Run A := fun s => (s, Err e).
Definition panic {A : Type} : Run A := fun s => (s, Panic).
Definition lift {A : Type} (r : result A) : Run A := fun s => (s, r).

Definition bind {A B : Type} (m : Run A) (f : A -> Run B) : Run B :=
  fun s => match m s with
           | (s', Ok a) => f a s'
           | (s', Err e) => (s', Err e)
           | (s', Panic) => (s', Panic)
           end.

Declare Scope go_scope.
Delimit Scope go_scope with go.
Notation "x <- m ;; f" := (bind m (fun x => f))
  (at level 61, m at next level, right associativity) : go_scope.
Notation "m ;;; f" := (bind m (fun _ => f))
  (at level 61, right associativity) : go_scope.
Local Open Scope go_scope.

(** [for _, x := range xs { f x }] with an error or panic leaving the loop. *)
Fixpoint forM {T : Type} (xs : seq T) (f : T -> Run unit) : Run unit :=
  match xs with
  | [::] => ret tt
  | x :: xs' => f x ;;; forM xs' f
  end.

(** The same loop collecting one value per iteration. *)
Fixpoint mapM {T A : Type} (xs : seq T) (f : T -> Run A) : Run (seq A) :=
  match xs with
  | [::] => ret [::]
  | x :: xs' => a <- f x ;; r <- mapM xs' f ;; ret (a :: r)
  end.

(** [make([]poly, n)] as a fresh row of zeros; its address is returned. *)
Definition alloc (row : seq Z) : Run loc := fun s => (rcons s row, Ok (size s)).

Definition load_row (l : loc) : Run (seq Z) :=
  fun s => if l < size s then (s, Ok (nth [::] s l)) else (s, Panic).

Definition load (l : loc) (j : nat) : Run Z :=
  fun s => if (l < size s) && (j < size (nth [::] s l))
           then (s, Ok (nth 0%Z (nth [::] s l) j)) else (s, Panic).

Definition store_at (l : loc) (j : nat) (v : Z) : Run unit :=
  fun s => if (l < size s) && (j < size (nth [::] s l))
           then (set_nth [::] s l (set_nth 0%Z (nth [::] s l) j v), Ok tt)
           else (s, Panic).

(** [A[i][j]] and [A[i][j] = v] for a matrix [A] given by its row addresses. *)
Definition mget (A : seq loc) (i j : nat) : Run Z :=
  if i < size A then load (nth 0 A i) j else panic.

Definition mset (A : seq loc) (i j : nat) (v : Z) : Run unit :=
  if i < size A then store_at (nth 0 A i) j v else panic.

(** A Go [int] used as an index or as a length. *)
Definition index_of (z : Z) (len : nat) : result nat :=
  if (0 <=? z)%Z && (Z.to_nat z < len) then Ok (Z.to_nat z) else Panic.

Definition make_len (z : Z) : result nat :=
  if (z <? 0)%Z then Panic else Ok (Z.to_nat z).

(** ** Machine integers *)

Module Int.

Local Open Scope Z_scope.

Definition u64 (x : Z) : Z := x mod 2 ^ 64.

Definition i64 (x : Z) : Z :=
  let y := x mod 2 ^ 64 in if y <? 2 ^ 63 then y else y - 2 ^ 64.

(** [x << i] on a [uint64]; a count of 64 or more gives 0. *)
Definition shl (x i : Z) : Z := u64 (Z.shiftl x i).

(** [^x] on a [uint64]. *)
Definition not64 (x : Z) : Z := u64 (Z.lnot x).

(** The indices of [for i := 0; i < n; i++]. *)
Definition upto (n : Z) : seq Z := [seq Z.of_nat i | i <- iota 0 (Z.to_nat n)].

End Int.

(** ** pkg/reedsolomon/galois.go *)

Module Galois.

Import Int.
Local Open Scope Z_scope.

Definition poly : Type := Z.

Record GaloisField : Type := { m : poly; p : poly }.

Definition size (g : GaloisField) : Z := shl 1 (m g).

Definition add (g : GaloisField) (x y : poly) : poly := Z.lxor x y.

(** First loop of [mul]: shift-and-xor product, leaving when [v1] is 0. *)
Fixpoint mul_prod (idx : seq Z) (v1 v2 prd : poly) : poly :=
  match idx with
  | [::] => prd
  | i :: idx' =>
      let prd := if negb (Z.land v1 1 =? 0) then Z.lxor prd (shl v2 i) else prd in
      let v1 := Z.shiftr v1 1 in
      if v1 =? 0 then prd else mul_prod idx' v1 v2 prd
  end.

(** Second loop of [mul]: [i] runs from [int64(m-2)] down to 0. *)
Fixpoint mul_reduce (idx : seq Z) (pol mask prd : poly) : poly :=
  match idx with
  | [::] => prd
  | i :: idx' =>
      let prd := if negb (Z.land prd mask =? 0)
                 then Z.lxor (Z.land prd (not64 mask)) (shl pol i)
                 else prd in
      mul_reduce idx' pol (Z.shiftr mask 1) prd
  end.

Definition mul (g : GaloisField) (x y : poly) : poly :=
  let pol := Z.lxor (p g) (shl 1 (m g)) in
  let prd := mul_prod (upto (m g)) x y 0 in
  let mask := shl 1 (u64 (m g + u64 (m g - 2))) in
  mul_reduce (rev (upto (i64 (m g - 2) + 1))) pol mask prd.

Fixpoint inv_search (g : GaloisField) (x : poly) (idx : seq Z) : poly :=
  match idx with
  | [::] => 1
  | i :: idx' => if mul g x i =? 1 then i else inv_search g x idx'
  end.

Definition inv (g : GaloisField) (x : poly) : result poly :=
  if x =? 0 then Err ErrZeroDivision
  else Ok (inv_search g x (behead (upto (size g)))).

Definition div (g : GaloisField) (x y : poly) : result poly :=
  rbind (inv g y) (fun yinv => Ok (mul g x yinv)).

Definition pow (g : GaloisField) (b e : poly) : poly :=
  iter (Z.to_nat e) (fun pwr => mul g pwr b) 1.

Definition vec_vec_dot (g : GaloisField) (v1 v2 : seq poly) : result poly :=
  if (seq.size v1 != seq.size v2)%N then Err ErrDimensionMismatch
  else Ok (foldl (fun prd xy => add g prd (mul g xy.1 xy.2)) 0 (zip v1 v2)).

Definition mtx_vec_dot (g : GaloisField) (A : seq loc) (v : seq poly)
  : Run (seq poly) :=
  mapM A (fun l => row <- load_row l ;; lift (vec_vec_dot g row v)).

Definition mtx_identity (n : Z) : Run (seq loc) :=
  if n <=? 0 then fail ErrDimensionMismatch
  else mapM (iota 0 (Z.to_nat n))
            (fun i => l <- alloc (nseq (Z.to_nat n) 0) ;;
                      store_at l i 1 ;;; ret l).

Definition mtx_vandermonde (g : GaloisField) (n k : Z) : Run (seq loc) :=
  if size g <? u64 (n + k) then fail ErrInsufficientFieldSize
  else rows <- lift (make_len (i64 (n + k))) ;;
       mapM (iota 0 rows)
            (fun i => cols <- lift (make_len n) ;;
                      l <- alloc (nseq cols 0) ;;
                      forM (iota 0 cols)
                           (fun j => store_at l j
                                       (pow g (Z.of_nat i) (Z.of_nat j))) ;;;
                      ret l).

Definition mtx_xform_vandermonde (g : GaloisField) (n k : Z) : Run (seq loc) :=
  mtx <- mtx_vandermonde g n k ;;
  forM (iota 1 (Z.to_nat n - 1))
       (fun i =>
          d <- mget mtx i i ;;
          forM (iota 0 (Z.to_nat n))
               (fun j => x <- mget mtx i j ;;
                         v <- lift (div g x d) ;;
                         mset mtx i j v) ;;;
          forM (iota 0 (Z.to_nat n))
               (fun j =>
                  if (j == i)%N then ret tt
                  else s <- mget mtx i j ;;
                       forM (iota 0 (Z.to_nat (i64 (n + k))))
                            (fun l => x <- mget mtx l i ;;
                                      y <- mget mtx l j ;;
                                      mset mtx l j (add g (mul g s x) y)))) ;;;
  ret mtx.

(** The pivot repair of [mtx_inv]: the first column [j] with [A[i][j] != 0]
    is added to column [i], in [A] and in [I]; then the search stops. *)
Fixpoint fix_pivot (g : GaloisField) (A I : seq loc) (n i : nat) (js : seq nat)
  : Run unit :=
  match js with
  | [::] => ret tt
  | j :: js' =>
      a <- mget A i j ;;
      if negb (a =? 0) then
        forM (iota 0 n)
             (fun k => x <- mget A k i ;; y <- mget A k j ;;
                       mset A k i (add g x y) ;;;
                       x' <- mget I k i ;; y' <- mget I k j ;;
                       mset I k i (add g x' y'))
      else fix_pivot g A I n i js'
  end.

Definition mtx_inv (g : GaloisField) (A : seq loc) : Run (seq loc) :=
  let n := seq.size A in
  row0 <- (if (0 < n)%N then load_row (nth 0%N A 0) else panic) ;;
  if (n != seq.size row0)%N then fail ErrNoninvertibleMatrix
  else
    I <- mtx_identity (Z.of_nat n) ;;
    forM (iota 0 n)
         (fun i =>
            a <- mget A i i ;;
            (if a =? 0 then fix_pivot g A I n i (iota 0 n) else ret tt) ;;;
            a <- mget A i i ;;
            (if a =? 0 then fail ErrNoninvertibleMatrix else ret tt) ;;;
            a <- mget A i i ;;
            (if negb (a =? 1) then
               v <- mget A i i ;;
               forM (iota 0 n)
                    (fun j => x <- mget A j i ;;
                              f1 <- lift (div g x v) ;;
                              y <- mget I j i ;;
                              f2 <- lift (div g y v) ;;
                              mset A j i f1 ;;;
                              mset I j i f2)
             else ret tt) ;;;
            forM (iota 0 n)
                 (fun j =>
                    a <- mget A i j ;;
                    if (j == i)%N || (a =? 0) then ret tt
                    else
                      v <- mget A i j ;;
                      forM (iota 0 n)
                           (fun k => x <- mget A k i ;; y <- mget A k j ;;
                                     mset A k j (add g (mul g v x) y) ;;;
                                     x' <- mget I k i ;; y' <- mget I k j ;;
                                     mset I k j (add g (mul g v x') y')))) ;;;
    ret I.

End Galois.

(** ** pkg/reedsolomon: the codec

    [NewCode], [EncodeAligned], [DecodeAligned], [Rebuild] and
    [buildMatrix] of [Code]; the older [ReedSolomonCode] of the same
    package has the same bodies.  The matrix kernel is called under the
    names [galois.go] declares ([mtx_xform_vandermonde], [mtx_vec_dot],
    [mtx_inv]). *)

Module ReedSolomon.

Import Int Galois.
Local Open Scope Z_scope.

Definition M : poly := 8.
Definition P : poly := 357.

Record Code : Type := { field : GaloisField; n : Z; k : Z; mtx : seq loc }.

Record Slice : Type := { Index : Z; Length : Z; Data : seq Z }.

(** [byte(x)] for a [poly] [x]. *)
Definition byte (x : Z) : Z := x mod 256.

Definition NewCode (n k : Z) : Run Code :=
  let f := {| m := M; p := P |} in
  mat <- mtx_xform_vandermonde f n k ;;
  ret {| field := f; n := n; k := k; mtx := mat |}.

Definition GetN (c : Code) : Z := n c.

(** [s[i]] for a slice of any element type. *)
Definition at_ {T : Type} (s : seq T) (i : nat) : result T :=
  match drop i s with
  | x :: _ => Ok x
  | [::] => Panic
  end.

(** [s[i] = v]. *)
Definition put {T : Type} (s : seq T) (i : nat) (v : T) : result (seq T) :=
  if (i < seq.size s)%N then Ok (take i s ++ v :: drop i.+1 s) else Panic.

(** A loop threading a local variable through its iterations. *)
Fixpoint foldM {T S : Type} (xs : seq T) (f : S -> T -> Run S) (s0 : S)
  : Run S :=
  match xs with
  | [::] => ret s0
  | x :: xs' => s1 <- f s0 x ;; foldM xs' f s1
  end.

(** [slices[j].Data[i] = v]. *)
Definition put_data (slices : seq Slice) (j i : nat) (v : Z)
  : result (seq Slice) :=
  rbind (at_ slices j) (fun s =>
  rbind (put (Data s) i v) (fun d =>
  put slices j {| Index := Index s; Length := Length s; Data := d |})).

(** [vec[j] = poly(slices[j].Data[i])] for [j < n]. *)
Definition column (slices : seq Slice) (cols i : nat) : Run (seq poly) :=
  mapM (iota 0 cols)
       (fun j => s <- lift (at_ slices j) ;; lift (at_ (Data s) i)).

Definition EncodeAligned (c : Code) (buf : seq Z) : Run (seq Slice) :=
  let len := Z.of_nat (seq.size buf) in
  if n c =? 0 then panic
  else if negb (Z.rem len (n c) =? 0) then fail ErrMisaligned
  else
    ns <- lift (make_len (i64 (n c + k c))) ;;
    slen <- lift (make_len (Z.quot len (n c))) ;;
    let slices :=
      [seq {| Index := Z.of_nat i; Length := Z.quot len (n c);
              Data := nseq slen 0 |} | i <- iota 0 ns] in
    cols <- lift (make_len (n c)) ;;
    foldM (iota 0 slen)
          (fun slices i =>
             vec <- mapM (iota 0 cols)
                         (fun j => lift (at_ buf (i * cols + j))) ;;
             cod <- mtx_vec_dot (field c) (mtx c) vec ;;
             foldM (iota 0 ns)
                   (fun slices j =>
                      x <- lift (at_ cod j) ;;
                      lift (put_data slices j i (byte x)))
                   slices)
          slices.

Definition buildMatrix (c : Code) (slices : seq Slice) : Run (seq loc) :=
  if Z.of_nat (seq.size slices) <? n c then fail ErrTooFewSlices
  else
    cols <- lift (make_len (n c)) ;;
    idx <- mapM (iota 0 cols)
                (fun i => s <- lift (at_ slices i) ;; ret (Index s)) ;;
    mtx <- mapM (iota 0 cols)
                (fun i =>
                   l <- alloc (nseq cols 0) ;;
                   forM (iota 0 cols)
                        (fun j =>
                           r <- lift (rbind (at_ idx i) (fun z =>
                                      index_of z (seq.size (mtx c)))) ;;
                           x <- mget (mtx c) r j ;;
                           store_at l j x) ;;;
                   ret l) ;;
    mtx_inv (field c) mtx.

Definition DecodeAligned (c : Code) (slices : seq Slice) : Run (seq Z) :=
  if Z.of_nat (seq.size slices) <? n c then fail ErrTooFewSlices
  else
    mtx <- buildMatrix c slices ;;
    s0 <- lift (at_ slices 0) ;;
    let slen := seq.size (Data s0) in
    total <- lift (make_len (i64 (n c * Z.of_nat slen))) ;;
    cols <- lift (make_len (n c)) ;;
    foldM (iota 0 slen)
          (fun bytes i =>
             vec <- column slices cols i ;;
             dat <- mtx_vec_dot (field c) mtx vec ;;
             foldM (iota 0 (seq.size dat))
                   (fun bytes j =>
                      x <- lift (at_ dat j) ;;
                      lift (put bytes (i * cols + j) (byte x)))
                   bytes)
          (nseq total 0).

Definition Rebuild (c : Code) (slices : seq Slice) : Run (seq Slice) :=
  if Z.of_nat (seq.size slices) <? n c then fail ErrTooFewSlices
  else
    mtx <- buildMatrix c slices ;;
    s0 <- lift (at_ slices 0) ;;
    let length := Length s0 in
    ns <- lift (make_len (i64 (n c + k c))) ;;
    result <- mapM (iota 0 ns)
                (fun i =>
                   s <- lift (at_ slices i) ;;
                   if Z.of_nat i =? Index s then
                     if negb (Length s =? length) then fail ErrSliceMismatch
                     else ret {| Index := Z.of_nat i; Length := length;
                                 Data := Data s |}
                   else
                     dlen <- lift (make_len length) ;;
                     ret {| Index := Z.of_nat i; Length := length;
                            Data := nseq dlen 0 |}) ;;
    cols <- lift (make_len (n c)) ;;
    foldM (iota 0 (seq.size (Data s0)))
          (fun result i =>
             vec <- column slices cols i ;;
             dat <- mtx_vec_dot (field c) mtx vec ;;
             cod <- mtx_vec_dot (field c) (ReedSolomon.mtx c) dat ;;
             foldM (iota 0 (seq.size result))
                   (fun result j =>
                      r <- lift (at_ result j) ;;
                      if Z.of_nat j =? Index r then
                        s <- lift (at_ slices j) ;;
                        if negb (Z.of_nat j =? Index s) then
                          x <- lift (at_ cod j) ;;
                          lift (put_data result j i (byte x))
                        else ret result
                      else ret result)
                   result)
          result.

End ReedSolomon.

(** ** The erasure-coding controller ([ErasureCoder])

    The replica backends are external: the controller only calls their
    [ReadAt] and [WriteAt].  [bReadAt b len off] is the content of a
    buffer of [len] bytes after [b.ReadAt(buf, off)], or the error;
    [bWriteAt b buf off] is the backend after the write and the byte
    count or the error. *)

Class Backend (B : Type) : Type := {
  bReadAt : B -> nat -> Z -> result (seq Z);
  bWriteAt : B -> seq Z -> Z -> B * result Z
}.

Module Controller.

Import Int Galois ReedSolomon.
Local Open Scope Z_scope.

Section Device.

Context {B : Type} {backend_ops : Backend B}.

Record ErasureCoder : Type :=
  { size : Z; backends : seq B; code : Code }.

Definition NewErasureCoder (n k : Z) (size : Z) (backends : seq B)
  : Run ErasureCoder :=
  cod <- NewCode n k ;;
  ret {| size := size; backends := backends; code := cod |}.

(** The stripe arithmetic at the head of [denseReadAt] and of
    [denseWriteAt] (the two functions compute it with the same lines). *)
Record geometry : Type :=
  { start : Z; length : Z; prePadLen : Z; sliceOff : Z; sliceLen : Z }.

Definition stripe (n off l : Z) : result geometry :=
  if n =? 0 then Panic
  else
    let start := i64 (off - Z.rem off n) in
    let reduce := Z.rem (i64 (off + l)) n in
    let length := i64 (i64 (i64 (i64 (off + l) + n) - reduce) - start) in
    Ok {| start := start; length := length;
          prePadLen := Z.rem off n;
          sliceOff := Z.quot start n;
          sliceLen := Z.quot length n |}.

(** [aread]: one goroutine per backend, sending a slice or an error. *)
Definition aread (length offset : Z) (idx : nat) (b : B) : result Slice :=
  rbind (make_len length) (fun len =>
  rbind (bReadAt b len offset) (fun buf =>
  Ok {| Index := Z.of_nat idx; Length := length; Data := buf |})).

(** The receiving loop of [denseReadAt].  [arrivals] are the messages in
    the order the [select] receives them; a slice fills the next free
    position, an error is logged, and the loop leaves once [n] slices
    have arrived. *)
Fixpoint gather (n : Z) (arrivals : seq (result Slice))
                (slices : seq Slice) (sliceIdx : nat)
  : result (seq Slice * nat) :=
  match arrivals with
  | [::] => Ok (slices, sliceIdx)
  | Ok dat :: rest =>
      rbind (put slices sliceIdx dat) (fun slices' =>
      if Z.of_nat sliceIdx.+1 =? n then Ok (slices', sliceIdx.+1)
      else gather n rest slices' sliceIdx.+1)
  | Err _ :: rest => gather n rest slices sliceIdx
  | Panic :: _ => Panic
  end.

(** [sched] lists the backends in the order their goroutines are heard:
    any arrangement of [0 .. len(backends)-1] is a possible run. *)
Definition denseReadAt (e : ErasureCoder) (sched : seq nat)
                       (buflen : nat) (off : Z)
  : Run (seq Z) :=
  let n := i64 (GetN (code e)) in
  let l := Z.of_nat buflen in
  g <- lift (stripe n off l) ;;
  ns <- lift (make_len n) ;;
  let empty := {| Index := 0; Length := 0; Data := [::] |} in
  let arrivals :=
    [seq match at_ (backends e) i with
         | Ok b => aread (sliceLen g) (sliceOff g) i b
         | _ => Panic
         end | i <- take (seq.size (backends e)) sched] in
  got <- lift (gather n arrivals (nseq ns empty) 0) ;;
  if Z.of_nat got.2 <? n then fail ErrTooFewSlices
  else
    alignedBuffer <- DecodeAligned (code e) got.1 ;;
    mapM (iota 0 buflen)
         (fun i =>
            lift (rbind (index_of (i64 (prePadLen g + Z.of_nat i))
                                  (seq.size alignedBuffer))
                        (at_ alignedBuffer))).

Definition ReadAt (e : ErasureCoder) (sched : seq nat) (buflen : nat) (off : Z)
  : Run (Z * seq Z) :=
  fun s => match denseReadAt e sched buflen off s with
           | (s', Ok buf) => (s', Ok (Z.of_nat buflen, buf))
           | (s', Err err) => (s', Err err)
           | (s', Panic) => (s', Panic)
           end.

(** [awrite] to every backend; the outcomes are received and logged. *)
Fixpoint write_all (bs : seq B) (slices : seq Slice) (i : nat) (sliceOff : Z)
  : result (seq B) :=
  match bs with
  | [::] => Ok [::]
  | b :: bs' =>
      rbind (at_ slices i) (fun s =>
      rbind (write_all bs' slices i.+1 sliceOff) (fun r =>
      Ok ((bWriteAt b (Data s) sliceOff).1 :: r)))
  end.

Definition denseWriteAt (e : ErasureCoder) (sched1 sched2 : seq nat)
                        (buf : seq Z) (off : Z)
  : Run (ErasureCoder * Z) :=
  let n := i64 (GetN (code e)) in
  let l := Z.of_nat (seq.size buf) in
  g <- lift (stripe n off l) ;;
  ns <- lift (make_len n) ;;
  pre <- ReadAt e sched1 ns (start g) ;;
  post <- ReadAt e sched2 ns (i64 (i64 (start g + length g) - n)) ;;
  let prePadLine := pre.2 in
  let postPadLine := post.2 in
  let prePadLen := Z.rem off n in
  let postPadLen := i64 (i64 (length g - prePadLen) - l) in
  total <- lift (make_len (length g)) ;;
  a1 <- foldM (iota 0 (Z.to_nat prePadLen))
              (fun a i => x <- lift (at_ prePadLine i) ;; lift (put a i x))
              (nseq total 0) ;;
  a2 <- foldM (iota 0 (seq.size buf))
              (fun a i =>
                 x <- lift (at_ buf i) ;;
                 j <- lift (index_of (i64 (prePadLen + Z.of_nat i))
                                     (seq.size a)) ;;
                 lift (put a j x))
              a1 ;;
  alignedBuffer <-
    foldM (rev (iota 1 (Z.to_nat postPadLen)))
          (fun a i =>
             x <- lift (rbind (index_of (i64 (n - Z.of_nat i))
                                        (seq.size postPadLine))
                              (at_ postPadLine)) ;;
             j <- lift (index_of (i64 (length g - Z.of_nat i))
                                 (seq.size a)) ;;
             lift (put a j x))
          a2 ;;
  slices <- EncodeAligned (code e) alignedBuffer ;;
  bs <- lift (write_all (backends e) slices 0 (Z.quot (start g) n)) ;;
  ret ({| size := size e; backends := bs; code := code e |}, 0).

Definition WriteAt (e : ErasureCoder) (sched1 sched2 : seq nat)
                   (buf : seq Z) (off : Z)
  : Run (ErasureCoder * Z) :=
  fun s => match denseWriteAt e sched1 sched2 buf off s with
           | (s', Ok (e', num)) => (s', Ok (e', num))
           | (s', Err err) => (s', Err err)
           | (s', Panic) => (s', Panic)
           end.

Definition UnmapAt (e : ErasureCoder) (length : Z) (off : Z) : result Z :=
  Err ErrNotImplemented.

End Device.

End Controller.

(** An in-memory replica, used to run the controller on examples: a
    fixed-size byte array; an access past its end is an error. *)
Definition mem_read (b : seq Z) (len : nat) (off : Z) : result (seq Z) :=
  if (0 <=? off)%Z && (Z.to_nat off + len <= size b)
  then Ok (take len (drop (Z.to_nat off) b)) else Err ErrBackend.

Definition mem_write (b : seq Z) (buf : seq Z) (off : Z)
  : seq Z * result Z :=
  if (0 <=? off)%Z && (Z.to_nat off + size buf <= size b)
  then (take (Z.to_nat off) b ++ buf ++ drop (Z.to_nat off + size buf) b,
        Ok (Z.of_nat (size buf)))
  else (b, Err ErrBackend).

Instance mem_backend : Backend (seq Z) :=
  {| bReadAt := mem_read; bWriteAt := mem_write |}.

(** * Properties *)

(** ** Running the monad *)

Section RunLemmas.

Variables (A B : Type).

Lemma bind_ok (m : Run A) (f : A -> Run B) s s1 a :
  m s = (s1, Ok a) -> bind m f s = f a s1.
Proof. by rewrite /bind => ->. Qed.

Lemma bind_ok_inv (m : Run A) (f : A -> Run B) s s' b :
  bind m f s = (s', Ok b) ->
  exists s1 a, m s = (s1, Ok a) /\ f a s1 = (s', Ok b).
Proof.
rewrite /bind; case: (m s) => s1 [a|e|] //= H.
by exists s1, a.
Qed.

Lemma bind_lift_ok (a : A) (f : A -> Run B) s :
  bind (lift (Ok a)) f s = f a s.
Proof. by []. Qed.

Lemma lift_ok_inv (r : result A) s s' a :
  lift r s = (s', Ok a) -> s' = s /\ r = Ok a.
Proof. by rewrite /lift => -[-> ->]. Qed.

Lemma rbind_ok_inv (r : result A) (f : A -> result B) b :
  rbind r f = Ok b -> exists a, r = Ok a /\ f a = Ok b.
Proof. by case: r => [a|e|] //= H; exists a. Qed.

End RunLemmas.

Lemma mapM_ok_inv (T A : Type) (f : T -> Run A) (xs : seq T) s s' r :
  mapM xs f s = (s', Ok r) ->
  forall i x0, i < size xs ->
  exists s1 s2 a, f (nth x0 xs i) s1 = (s2, Ok a).
Proof.
elim: xs s s' r => [|x xs IH] s s' r //= H.
have [s1 [a [Hx H1]]] := bind_ok_inv H.
have [s2 [r' [Hr _]]] := bind_ok_inv H1.
case=> [|i] x0 Hi; first by exists s, s1, a.
exact: (IH _ _ _ Hr i x0 Hi).
Qed.

(** Membership in the index range of a counting loop. *)
Lemma all_upto (P : Z -> bool) (n : Z) :
  all P (Int.upto n) -> forall x, (0 <= x < n)%Z -> P x.
Proof.
rewrite /Int.upto => /all_nthP H x Hx.
have Hlt : Z.to_nat x < Z.to_nat n by apply/ltP; lia.
have := H 0%Z (Z.to_nat x); rewrite size_map size_iota => /(_ Hlt).
rewrite (nth_map 0) ?size_iota // nth_iota // add0n Z2Nat.id //; lia.
Qed.

(** ** The default field GF(2^8), p = 357 *)

Definition gf : Galois.GaloisField :=
  {| Galois.m := ReedSolomon.M; Galois.p := ReedSolomon.P |}.

Definition inverse_ok (x : Z) : bool :=
  match Galois.inv gf x with
  | Ok y => (Galois.mul gf x y =? 1)%Z
  | _ => false
  end.

Lemma inverse_table :
  all (fun z => (z =? 0)%Z || inverse_ok z) (Int.upto 256).
Proof. by vm_compute. Qed.

(** C7. In the default field GF(2^8) with p = 357, [inv] succeeds on
    every non-zero element x (1 <= x < 256) and [mul x (inv x) = 1]. *)
Theorem inv_mul_default (x : Z) :
  (1 <= x < 256)%Z ->
  exists y, Galois.inv gf x = Ok y /\ Galois.mul gf x y = 1%Z.
Proof.
move=> Hx; have := all_upto inverse_table (x := x).
have -> : (x =? 0)%Z = false by apply/Z.eqb_neq; lia.
rewrite /inverse_ok /=; case: (Galois.inv gf x) => [y|e|] H.
- by exists y; split=> //; apply/Z.eqb_eq; apply: H; lia.
- by have := H; move=> /(_ ltac:(lia)).
- by have := H; move=> /(_ ltac:(lia)).
Qed.

Lemma inv_mul_default_witness :
  exists y, Galois.inv gf 3%Z = Ok y /\ Galois.mul gf 3%Z y = 1%Z.
Proof. apply: (inv_mul_default (x := 3%Z)); lia. Defined.

(** ** Machine integers in range *)

Lemma i64_small (x : Z) : (0 <= x < 2 ^ 63)%Z -> Int.i64 x = x.
Proof.
move=> Hx; rewrite /Int.i64 Z.mod_small; first lia.
by have -> : (x <? 2 ^ 63)%Z = true by apply/Z.ltb_lt; lia.
Qed.

Lemma make_len_nat (n : nat) : make_len (Z.of_nat n) = Ok n.
Proof.
rewrite /make_len Nat2Z.id.
by have -> : (Z.of_nat n <? 0)%Z = false by apply/Z.ltb_ge; lia.
Qed.

(** ** The stripe arithmetic of the device *)

Section Stripe.

Import Controller.
Local Open Scope Z_scope.

(** The end of the aligned region, [start + length], that [denseReadAt]
    and [denseWriteAt] work with. *)
Lemma stripe_end (n off l : Z) :
  0 < n -> 0 <= off -> 0 <= l -> off + l + n < 2 ^ 63 ->
  exists g, stripe n off l = Ok g /\
            start g = off - Z.rem off n /\
            start g + length g = off + l + n - Z.rem (off + l) n.
Proof.
move=> Hn Hoff Hl Hbig; rewrite /stripe.
have -> : (n =? 0) = false by apply/Z.eqb_neq; lia.
have H1 := Z.rem_bound_pos off n Hoff Hn.
have H2 : 0 <= Z.rem (off + l) n < n by apply: Z.rem_bound_pos; lia.
have H3 : Z.rem off n <= off by apply: Z.rem_le; lia.
have E1 : Int.i64 (off - Z.rem off n) = off - Z.rem off n.
  by apply: i64_small; lia.
have E2 : Int.i64 (off + l) = off + l by apply: i64_small; lia.
have E3 : Int.i64 (off + l + n) = off + l + n by apply: i64_small; lia.
have E4 : Int.i64 (off + l + n - Z.rem (off + l) n)
          = off + l + n - Z.rem (off + l) n by apply: i64_small; lia.
have E5 : Int.i64 (off + l + n - Z.rem (off + l) n - (off - Z.rem off n))
          = off + l + n - Z.rem (off + l) n - (off - Z.rem off n).
  by apply: i64_small; lia.
eexists; split; first by [].
by rewrite /= E1 E2 E3 E4 E5; split=> //; lia.
Qed.

(** C4 (what the code does where the claim fails).  When the request
    ends on a stripe boundary, [(off + l) mod n = 0], the aligned region
    of the device ends at [off + l + n]: a whole further stripe is
    added, where the specification's formula ends at [off + l]. *)
Theorem stripe_end_adds_full_stripe (n off l : Z) :
  0 < n -> 0 <= off -> 0 <= l -> off + l + n < 2 ^ 63 ->
  Z.rem (off + l) n = 0 ->
  exists g, stripe n off l = Ok g /\ start g + length g = off + l + n.
Proof.
move=> Hn Hoff Hl Hbig Hrem.
have [g [Hg [_ Hend]]] := stripe_end Hn Hoff Hl Hbig.
by exists g; split=> //; rewrite Hend Hrem; lia.
Qed.

Lemma stripe_end_adds_full_stripe_witness :
  exists g, stripe 3 0 3 = Ok g /\ start g + length g = 0 + 3 + 3.
Proof. by apply: (@stripe_end_adds_full_stripe 3 0 3); try lia. Defined.

End Stripe.

(** ** The byte count of a write *)

Ltac bind_inv H :=
  let s := fresh "s" in let a := fresh "a" in
  let H1 := fresh "H" in
  case: (bind_ok_inv H) => s [a [H1 {}H]].

Tactic Notation "bind_case" hyp(H) "as" ident(a) ident(Ha) "at" ident(s) :=
  case: (bind_ok_inv H) => s [a [Ha {}H]].

Tactic Notation "bind_case" hyp(H) "as" ident(a) ident(Ha) :=
  let s := fresh "s" in
  case: (bind_ok_inv H) => s [a [Ha {}H]].

Section WriteCount.

Import Controller.
Context {B : Type} {backend_ops : Backend B}.

Lemma denseWriteAt_count (e : ErasureCoder) sched1 sched2 buf off s s' e' num :
  denseWriteAt e sched1 sched2 buf off s = (s', Ok (e', num)) -> num = 0%Z.
Proof.
rewrite /denseWriteAt => H.
do 10 bind_inv H.
by case: H.
Qed.

(** C5 (what the code does where the claim fails).  Whenever [WriteAt]
    succeeds, the byte count it returns is 0, whatever the length of
    the buffer: [denseWriteAt] ends in [return 0, nil]. *)
Theorem WriteAt_count_zero (e : ErasureCoder) sched1 sched2 buf off s s' e' num :
  WriteAt e sched1 sched2 buf off s = (s', Ok (e', num)) -> num = 0%Z.
Proof.
rewrite /WriteAt.
case H: (denseWriteAt e sched1 sched2 buf off s) => [s1 [[e1 n1]|err|]] //.
by case=> _ _ <-; apply: denseWriteAt_count H.
Qed.

End WriteCount.

(** ** The 3+2 code of the end-to-end scenarios *)

Definition code32 : ReedSolomon.Code :=
  {| ReedSolomon.field := gf; ReedSolomon.n := 3; ReedSolomon.k := 2;
     ReedSolomon.mtx := iota 0 5 |}.

(** Its generator matrix, as [NewCode 3 2] leaves it in an empty store. *)
Definition store32 : store :=
  [:: [:: 1; 0; 0]; [:: 0; 1; 0]; [:: 0; 0; 1]; [:: 1; 1; 6]; [:: 15; 8; 20]]%Z.

Lemma NewCode_3_2 : ReedSolomon.NewCode 3 2 [::] = (store32, Ok code32).
Proof. by vm_compute. Qed.

(** The bytes of ["abcdef"] and the five slices of their encoding. *)
Definition abcdef : seq Z := [:: 97; 98; 99; 100; 101; 102]%Z.

Definition slice32 (i : Z) (d : seq Z) : ReedSolomon.Slice :=
  {| ReedSolomon.Index := i; ReedSolomon.Length := 2; ReedSolomon.Data := d |}.

Definition abcdef_slices : seq ReedSolomon.Slice :=
  [:: slice32 0 [:: 97; 100]; slice32 1 [:: 98; 101]; slice32 2 [:: 99; 102];
      slice32 3 [:: 44; 48]; slice32 4 [:: 184; 247]]%Z.

Lemma Encode_abcdef :
  ReedSolomon.EncodeAligned code32 abcdef store32 = (store32, Ok abcdef_slices).
Proof. by vm_compute. Qed.

(** A device of five in-memory replicas of twelve bytes each over that
    code, as [NewErasureCoder 3 2 32] builds it. *)
Definition dev32 : Controller.ErasureCoder :=
  {| Controller.size := 32; Controller.backends := nseq 5 (nseq 12 0%Z);
     Controller.code := code32 |}.

Lemma NewErasureCoder_3_2 :
  Controller.NewErasureCoder 3 2 32 (nseq 5 (nseq 12 0%Z)) [::]
  = (store32, Ok dev32).
Proof. by vm_compute. Qed.

(** Scenario S5, the write of ["XY"] at offset 1: it succeeds and the
    count returned is 0, not 2. *)
Lemma WriteAt_count_zero_witness :
  exists s' e' num,
    Controller.WriteAt dev32 (iota 0 5) (iota 0 5) [:: 88; 89]%Z 1 store32
    = (s', Ok (e', num)) /\ num = 0%Z.
Proof.
have [s' [e' H]] : exists s' e',
    Controller.WriteAt dev32 (iota 0 5) (iota 0 5) [:: 88; 89]%Z 1 store32
    = (s', Ok (e', 0%Z)) by vm_compute; eexists; eexists.
exists s', e', 0%Z; split; first exact: H.
exact: (WriteAt_count_zero H).
Defined.

(** ** Rebuild from exactly n slices *)

Section RebuildShort.

Import ReedSolomon.

(** [Rebuild] reads [slices[i]] for every [i < n+k]: on a list shorter
    than [n+k] it cannot return its slices. *)
Lemma Rebuild_short_list (c : Code) (slices : seq Slice) s s' r :
  (Z.of_nat (size slices) < Int.i64 (n c + k c))%Z ->
  Rebuild c slices s <> (s', Ok r).
Proof.
move=> Hlt; rewrite /Rebuild.
case: (Z.of_nat (size slices) <? n c)%Z => // H.
bind_case H as mtx Hmtx; bind_case H as sl0 Hsl0; bind_case H as ns Hns.
bind_case H as res Hres.
have [_] := lift_ok_inv Hns.
rewrite /make_len; case: (_ <? 0)%Z => // -[Ens].
have Hi : size slices < size (iota 0 ns).
  by rewrite size_iota -Ens; apply/ltP; lia.
have [s4 [s5 [x]]] := mapM_ok_inv Hres 0 Hi.
have -> : nth 0 (iota 0 ns) (size slices) = size slices.
  by rewrite nth_iota ?add0n //; move: Hi; rewrite size_iota.
move=> Hx; have [s6 [y [Hy _]]] := bind_ok_inv Hx.
by have [_] := lift_ok_inv Hy; rewrite /ReedSolomon.at_ drop_size.
Qed.

(** C3 (what the code does where the claim fails).  Scenario S4: from
    the three slices 0, 2 and 3 of the encoding of ["abcdef"] under the
    3+2 code, [Rebuild] panics (it indexes [slices[3]]). *)
Theorem Rebuild_from_n_slices_panics :
  (Rebuild code32 [:: nth (slice32 0 [::]) abcdef_slices 0;
                      nth (slice32 0 [::]) abcdef_slices 2;
                      nth (slice32 0 [::]) abcdef_slices 3] store32).2
  = Panic.
Proof. by vm_compute. Qed.

End RebuildShort.

(** ** The order of the slices given to DecodeAligned *)

Section DecodeOrder.

Import ReedSolomon.

Definition abc_slices : seq Slice :=
  [:: {| Index := 0; Length := 1; Data := [:: 97] |};
      {| Index := 1; Length := 1; Data := [:: 98] |};
      {| Index := 2; Length := 1; Data := [:: 99] |}]%Z.

(** C9 (what the code does where the claim fails).  The slices 0, 1, 2
    of ["abc"] decode to ["abc"] in the order 0, 1, 2 and to the bytes
    97, 98, 1 in the order 2, 0, 1: the pivot repair of [mtx_inv]
    searches from column 0 and spoils a row already reduced. *)
Theorem DecodeAligned_order_matters :
  (DecodeAligned code32 abc_slices store32).2 = Ok [:: 97; 98; 99]%Z /\
  (DecodeAligned code32 (rot 2 abc_slices) store32).2 = Ok [:: 97; 98; 1]%Z.
Proof. by split; vm_compute. Qed.

End DecodeOrder.

(** ** What a call may do to the store

    [hoare b m Q E]: run from a store of at least [b] rows, [m] only
    appends rows and writes rows at or above address [b]; it never
    changes the length of a row; a value it returns satisfies [Q] and an
    error it returns satisfies [E]. *)

Definition safe_over (b : nat) (s s' : store) : Prop :=
  [/\ size s <= size s', take b s' = take b s
    & forall l, l < size s -> size (nth [::] s' l) = size (nth [::] s l)].

Definition outcome (A : Type) (Q : A -> bool) (E : error -> bool)
  (r : result A) : bool :=
  match r with
  | Ok a => Q a
  | Err e => E e
  | Panic => true
  end.

Definition hoare (A : Type) (b : nat) (m : Run A)
  (Q : A -> bool) (E : error -> bool) : Prop :=
  forall s, b <= size s -> safe_over b s (m s).1 /\ outcome Q E (m s).2.

Lemma safe_over_refl b s : safe_over b s s.
Proof. by split. Qed.

Lemma safe_over_trans b s1 s2 s3 :
  safe_over b s1 s2 -> safe_over b s2 s3 -> safe_over b s1 s3.
Proof.
move=> [H1 H2 H3] [H4 H5 H6]; split.
- exact: leq_trans H1 H4.
- by rewrite H5.
- by move=> l Hl; rewrite H6 ?H3 //; apply: leq_trans Hl H1.
Qed.

Section HoareRules.

Variables (A B : Type) (b : nat).
Implicit Types (E : error -> bool).

Lemma hoare_ret (a : A) (Q : A -> bool) E : Q a -> hoare b (ret a) Q E.
Proof. by move=> Ha s _; split=> //; apply: safe_over_refl. Qed.

Lemma hoare_fail (e : error) (Q : A -> bool) E :
  E e -> hoare b (fail e) Q E.
Proof. by move=> He s _; split=> //; apply: safe_over_refl. Qed.

Lemma hoare_panic (Q : A -> bool) E : hoare b (@panic A) Q E.
Proof. by move=> s _; split=> //; apply: safe_over_refl. Qed.

Lemma hoare_lift (r : result A) (Q : A -> bool) E :
  outcome Q E r -> hoare b (lift r) Q E.
Proof. by move=> Hr s _; split=> //; apply: safe_over_refl. Qed.

Lemma hoare_bind (m : Run A) (f : A -> Run B) (Q : A -> bool)
      (R : B -> bool) E :
  hoare b m Q E -> (forall a, Q a -> hoare b (f a) R E) ->
  hoare b (bind m f) R E.
Proof.
move=> Hm Hf s Hs; rewrite /bind.
have [Hsafe] := Hm s Hs.
case: (m s) Hsafe => s1 [a|e|] /= Hsafe Ha //.
have Hs1 : b <= size s1 by case: Hsafe => H _ _; apply: leq_trans Hs H.
have [H1 H2] := Hf a Ha s1 Hs1.
by split=> //; apply: safe_over_trans Hsafe H1.
Qed.

Lemma hoare_weaken (m : Run A) (Q Q' : A -> bool) E E' :
  hoare b m Q E -> (forall a, Q a -> Q' a) -> (forall e, E e -> E' e) ->
  hoare b m Q' E'.
Proof.
move=> Hm HQ HE s Hs; have [H1 H2] := Hm s Hs; split=> //.
by case: (m s).2 H2 => [a|e|] //=; [apply: HQ | apply: HE].
Qed.

End HoareRules.

Lemma hoare_forM (T : Type) b (xs : seq T) (f : T -> Run unit) E :
  (forall x, hoare b (f x) xpredT E) -> hoare b (forM xs f) xpredT E.
Proof.
move=> Hf; elim: xs => [|x xs IH] /=; first exact: hoare_ret.
by apply: hoare_bind (Hf x) _ => _ _.
Qed.

Lemma hoare_mapM (T A : Type) b (xs : seq T) (f : T -> Run A)
      (Q : A -> bool) E :
  (forall x, hoare b (f x) Q E) -> hoare b (mapM xs f) (all Q) E.
Proof.
move=> Hf; elim: xs => [|x xs IH] /=; first exact: hoare_ret.
apply: hoare_bind (Hf x) _ => a Ha.
apply: hoare_bind IH _ => r Hr.
by apply: hoare_ret; rewrite /= Ha.
Qed.

Lemma hoare_foldM (T S : Type) b (xs : seq T) (f : S -> T -> Run S)
      (s0 : S) E :
  (forall st x, hoare b (f st x) xpredT E) ->
  hoare b (ReedSolomon.foldM xs f s0) xpredT E.
Proof.
move=> Hf; elim: xs s0 => [|x xs IH] s0 /=; first exact: hoare_ret.
by apply: hoare_bind (Hf s0 x) _ => s1 _.
Qed.

(** The primitives. *)

Lemma hoare_alloc b row E : hoare b (alloc row) (leq b) E.
Proof.
move=> s Hs; rewrite /alloc /=; split=> //; split.
- by rewrite size_rcons.
- rewrite -cats1 take_cat; case: ltnP => // Hge.
  have -> : b = size s by apply/eqP; rewrite eqn_leq Hs.
  by rewrite subnn take0 cats0 take_size.
- by move=> l Hl; rewrite nth_rcons Hl.
Qed.

Lemma hoare_load_row b l E : hoare b (load_row l) xpredT E.
Proof.
by move=> s _; rewrite /load_row; case: ifP => _; split=> //;
   apply: safe_over_refl.
Qed.

Lemma hoare_load b l j E : hoare b (load l j) xpredT E.
Proof.
by move=> s _; rewrite /load; case: ifP => _; split=> //;
   apply: safe_over_refl.
Qed.

Lemma hoare_store_at b l j v E : b <= l -> hoare b (store_at l j v) xpredT E.
Proof.
move=> Hbl s Hs; rewrite /store_at; case: ifP => [/andP [Hl Hj]|_];
  last by split=> //; apply: safe_over_refl.
set s' := set_nth _ _ _ _.
have Hsz : size s' = size s by rewrite size_set_nth; apply/maxn_idPr.
split=> //; split=> /=.
- by rewrite Hsz.
- apply: (@eq_from_nth _ [::]); first by rewrite !size_take Hsz.
  move=> i; rewrite size_take Hsz => Hi.
  have Hib : i < b.
    move: Hi; case: ifP => // /negbT; rewrite -leqNgt => Hge Hi.
    exact: leq_trans Hi Hge.
  rewrite !nth_take // nth_set_nth /=.
  by case: eqP => // Eil; move: Hib; rewrite Eil ltnNge Hbl.
- move=> i Hi; rewrite nth_set_nth /=; case: eqP => // ->.
  by rewrite size_set_nth; apply/maxn_idPr.
Qed.

Lemma hoare_mget b A i j E : hoare b (mget A i j) xpredT E.
Proof.
by rewrite /mget; case: ifP => _; [apply: hoare_load | apply: hoare_panic].
Qed.

Lemma hoare_mset b A i j v E :
  all (leq b) A -> hoare b (mset A i j v) xpredT E.
Proof.
move=> HA; rewrite /mset; case: ifP => Hi; last exact: hoare_panic.
by apply: hoare_store_at; apply: (allP HA); apply: mem_nth.
Qed.

(** Outcomes of the pure helpers. *)

Lemma rbind_outcome (A B : Type) (r : result A) (f : A -> result B)
      (Q : A -> bool) (R : B -> bool) E :
  outcome Q E r -> (forall a, Q a -> outcome R E (f a)) ->
  outcome R E (rbind r f).
Proof. by case: r => [a|e|] //= Ha; apply. Qed.

Lemma at_outcome (T : Type) (s : seq T) i E :
  outcome xpredT E (ReedSolomon.at_ s i).
Proof. by rewrite /ReedSolomon.at_; case: (drop i s). Qed.

Lemma put_outcome (T : Type) (s : seq T) i v E :
  outcome xpredT E (ReedSolomon.put s i v).
Proof. by rewrite /ReedSolomon.put; case: ifP. Qed.

Lemma index_of_outcome z len E : outcome xpredT E (index_of z len).
Proof. by rewrite /index_of; case: ifP. Qed.

Lemma make_len_outcome z E : outcome xpredT E (make_len z).
Proof. by rewrite /make_len; case: ifP. Qed.

Lemma put_data_outcome slices j i v E :
  outcome xpredT E (ReedSolomon.put_data slices j i v).
Proof.
rewrite /ReedSolomon.put_data.
apply: rbind_outcome (at_outcome _ _ _) _ => s _.
apply: rbind_outcome (put_outcome _ _ _ _) _ => d _.
exact: put_outcome.
Qed.

Lemma div_outcome g x y (E : error -> bool) :
  E ErrZeroDivision -> outcome xpredT E (Galois.div g x y).
Proof. by move=> HE; rewrite /Galois.div /Galois.inv; case: ifP. Qed.

Lemma vec_vec_dot_outcome g v1 v2 (E : error -> bool) :
  E ErrDimensionMismatch -> outcome xpredT E (Galois.vec_vec_dot g v1 v2).
Proof. by move=> HE; rewrite /Galois.vec_vec_dot; case: ifP. Qed.

Lemma hoare_mapM_any (T A : Type) b (xs : seq T) (f : T -> Run A)
      (Q : A -> bool) E :
  (forall x, hoare b (f x) Q E) -> hoare b (mapM xs f) xpredT E.
Proof.
by move=> Hf; apply: hoare_weaken (hoare_mapM xs Hf) _ _.
Qed.

Lemma hoare_run (A : Type) b (m : Run A) Q E s :
  hoare b m Q E -> b <= size s ->
  safe_over b s (m s).1 /\ outcome Q E (m s).2.
Proof. by move=> H; apply: H. Qed.

(** Proofs by the rules, following the shape of the command.  The rules
    are applied to [hoare] as it stands, never to its unfolding. *)
Opaque hoare.
Ltac houtcome :=
  first [ eapply make_len_outcome | eapply index_of_outcome
        | eapply at_outcome | eapply put_outcome | eapply put_data_outcome
        | (eapply div_outcome; by [])
        | (eapply vec_vec_dot_outcome; by [])
        | (eapply rbind_outcome; [ houtcome | move=> ? _; houtcome ]) ].

Ltac hextra := fail.

Ltac hcmd :=
  cbv beta;
  first
    [ by eapply hoare_ret
    | match goal with
      | |- hoare ?b (ret _) _ _ =>
          first [ by eapply (@hoare_ret _ b _ (leq b))
                | by eapply (@hoare_ret _ b _ xpredT) ]
      end
    | by eapply hoare_fail
    | eapply hoare_panic
    | eapply hoare_mget | eapply hoare_load_row | eapply hoare_load
    | eapply hoare_alloc
    | by eapply hoare_mset
    | by eapply hoare_store_at
    | (eapply hoare_lift; houtcome)
    | hextra
    | (eapply hoare_forM; intro; hcmd)
    | (eapply hoare_foldM; intros; hcmd)
    | (eapply hoare_mapM; intro; hcmd)
    | (eapply hoare_mapM_any; intro; hcmd)
    | (eapply hoare_bind; [ hcmd | intros ? ?; hcmd ])
    | (eapply (@hoare_bind _ _ _ _ _ xpredT); [ hcmd | intros ? ?; hcmd ])
    | (case: ifP => _; hcmd) ].

(** ** The matrix kernel only touches the rows it is given or allocates *)

Section KernelFrame.

Import Galois.
Variables (b : nat) (g : GaloisField) (E : error -> bool).

Lemma hoare_mtx_vec_dot A v :
  E ErrDimensionMismatch -> hoare b (mtx_vec_dot g A v) xpredT E.
Proof. by move=> HE; rewrite /mtx_vec_dot; hcmd. Qed.

Lemma hoare_mtx_identity n :
  E ErrDimensionMismatch -> hoare b (mtx_identity n) (all (leq b)) E.
Proof. by move=> HE; rewrite /mtx_identity; hcmd. Qed.

(** [mtx_vandermonde] once the size of the field has been checked. *)
Definition vandermonde_rows (n k : Z) : Run (seq loc) :=
  (rows <- lift (make_len (Int.i64 (n + k))) ;;
   mapM (iota 0 rows)
        (fun i => cols <- lift (make_len n) ;;
                  l <- alloc (nseq cols 0%Z) ;;
                  forM (iota 0 cols)
                       (fun j => store_at l j
                                   (pow g (Z.of_nat i) (Z.of_nat j))) ;;;
                  ret l))%go.

Lemma mtx_vandermondeE n k :
  mtx_vandermonde g n k =
  if (size g <? Int.u64 (n + k))%Z then fail ErrInsufficientFieldSize
  else vandermonde_rows n k.
Proof. by []. Qed.

Lemma hoare_vandermonde_rows n k :
  hoare b (vandermonde_rows n k) (all (leq b)) E.
Proof. by rewrite /vandermonde_rows; hcmd. Qed.

(** The row reduction of [mtx_xform_vandermonde], after the matrix is
    built. *)
Definition xform_loop (n k : Z) (mtx : seq loc) : Run unit :=
  forM (iota 1 (Z.to_nat n - 1))
       (fun i =>
          d <- mget mtx i i ;;
          forM (iota 0 (Z.to_nat n))
               (fun j => x <- mget mtx i j ;;
                         v <- lift (div g x d) ;;
                         mset mtx i j v) ;;;
          forM (iota 0 (Z.to_nat n))
               (fun j =>
                  if (j == i)%N then ret tt
                  else s <- mget mtx i j ;;
                       forM (iota 0 (Z.to_nat (Int.i64 (n + k))))
                            (fun l => x <- mget mtx l i ;;
                                      y <- mget mtx l j ;;
                                      mset mtx l j (add g (mul g s x) y))))%go.

Lemma mtx_xform_vandermondeE n k :
  mtx_xform_vandermonde g n k =
  (mtx <- mtx_vandermonde g n k ;; xform_loop n k mtx ;;; ret mtx)%go.
Proof. by []. Qed.

Lemma hoare_xform_loop n k mtx :
  E ErrZeroDivision -> all (leq b) mtx ->
  hoare b (xform_loop n k mtx) xpredT E.
Proof. by move=> HE Hmtx; rewrite /xform_loop; hcmd. Qed.

Lemma hoare_mtx_xform_vandermonde n k :
  E ErrZeroDivision -> E ErrInsufficientFieldSize ->
  hoare b (mtx_xform_vandermonde g n k) (all (leq b)) E.
Proof.
move=> HE1 HE2; rewrite mtx_xform_vandermondeE mtx_vandermondeE.
eapply (@hoare_bind _ _ _ _ _ (all (leq b))).
  by case: ifP => _; [apply: hoare_fail | apply: hoare_vandermonde_rows].
move=> mtx Hmtx.
eapply hoare_bind; first exact: hoare_xform_loop.
by move=> _ _; apply: hoare_ret.
Qed.

Lemma hoare_fix_pivot A I n i js :
  all (leq b) A -> all (leq b) I ->
  hoare b (fix_pivot g A I n i js) xpredT E.
Proof.
move=> HA HI; elim: js => [|j js IH] /=; first exact: hoare_ret.
eapply hoare_bind; first by eapply hoare_mget.
by move=> a _; case: ifP => _ //; hcmd.
Qed.

Lemma hoare_mtx_inv A :
  E ErrZeroDivision -> E ErrNoninvertibleMatrix -> E ErrDimensionMismatch ->
  all (leq b) A -> hoare b (mtx_inv g A) (all (leq b)) E.
Proof.
move=> HE1 HE2 HE3 HA; rewrite /mtx_inv.
eapply (@hoare_bind _ _ _ _ _ xpredT); first by hcmd.
move=> row0 _; case: ifP => _; first exact: hoare_fail.
eapply hoare_bind; first exact: hoare_mtx_identity.
move=> I HI.
have Hpiv i : hoare b (fix_pivot g A I (seq.size A) i (iota 0 (seq.size A)))
                    xpredT E by apply: hoare_fix_pivot.
eapply (@hoare_bind _ _ _ _ _ xpredT); last by move=> _ _; apply: hoare_ret.
eapply hoare_forM => i; cbv beta.
eapply hoare_bind; first by eapply hoare_mget.
move=> a _.
eapply (@hoare_bind _ _ _ _ _ xpredT).
  by case: ifP => _; [apply: Hpiv | apply: hoare_ret].
by move=> _ _; hcmd.
Qed.

End KernelFrame.

Ltac hextra ::=
  first [ by eapply hoare_mtx_vec_dot | by eapply hoare_mtx_identity
        | by eapply hoare_mtx_inv | by eapply hoare_mtx_xform_vandermonde ].

(** ** The codec only touches rows it allocates itself *)

Section CodecFrame.

Import Galois ReedSolomon.
Variables (b : nat) (E : error -> bool).

Lemma hoare_NewCode n k :
  E ErrZeroDivision -> E ErrInsufficientFieldSize ->
  hoare b (NewCode n k) xpredT E.
Proof. by move=> HE1 HE2; rewrite /NewCode; hcmd. Qed.

Lemma hoare_column slices cols i : hoare b (column slices cols i) xpredT E.
Proof. by rewrite /column; hcmd. Qed.

Lemma hoare_EncodeAligned c buf :
  E ErrMisaligned -> E ErrDimensionMismatch ->
  hoare b (EncodeAligned c buf) xpredT E.
Proof. by move=> HE1 HE2; rewrite /EncodeAligned; hcmd. Qed.

Lemma hoare_buildMatrix c slices :
  E ErrTooFewSlices -> E ErrZeroDivision -> E ErrNoninvertibleMatrix ->
  E ErrDimensionMismatch ->
  hoare b (buildMatrix c slices) (all (leq b)) E.
Proof.
move=> HE1 HE2 HE3 HE4; rewrite /buildMatrix.
case: ifP => _; first exact: hoare_fail.
eapply hoare_bind; first by hcmd.
move=> cols _.
eapply (@hoare_bind _ _ _ _ _ xpredT); first by hcmd.
move=> idx _.
eapply (@hoare_bind _ _ _ _ _ (all (leq b))); first by hcmd.
by move=> mtx Hmtx; apply: hoare_mtx_inv.
Qed.

Lemma hoare_DecodeAligned c slices :
  E ErrTooFewSlices -> E ErrZeroDivision -> E ErrNoninvertibleMatrix ->
  E ErrDimensionMismatch ->
  hoare b (DecodeAligned c slices) xpredT E.
Proof.
move=> HE1 HE2 HE3 HE4; rewrite /DecodeAligned.
case: ifP => _; first exact: hoare_fail.
eapply hoare_bind; first exact: hoare_buildMatrix.
have Hcol := hoare_column.
by move=> mtx Hmtx; hcmd.
Qed.

Lemma hoare_Rebuild c slices :
  E ErrTooFewSlices -> E ErrZeroDivision -> E ErrNoninvertibleMatrix ->
  E ErrDimensionMismatch -> E ErrSliceMismatch ->
  hoare b (Rebuild c slices) xpredT E.
Proof.
move=> HE1 HE2 HE3 HE4 HE5; rewrite /Rebuild.
case: ifP => _; first exact: hoare_fail.
eapply hoare_bind; first exact: hoare_buildMatrix.
have Hcol := hoare_column.
by move=> mtx Hmtx; hcmd.
Qed.

End CodecFrame.

(** ** Immutability of a code *)

Lemma hoare_size (A : Type) (m : Run A) Q E s :
  hoare 0 m Q E -> size s <= size (m s).1.
Proof. by move=> Hm; have [[]] := hoare_run Hm (leq0n (size s)). Qed.

Lemma hoare_prefix (A : Type) (m : Run A) Q E s :
  hoare (size s) m Q E ->
  size s <= size (m s).1 /\ take (size s) (m s).1 = s.
Proof.
move=> Hm; have [[H1 H2 _] _] := hoare_run Hm (leqnn (size s)).
by rewrite H2 take_size.
Qed.

Lemma all_leq0 (A : seq loc) : all (leq 0) A.
Proof. by apply/allP. Qed.

Section Immutable.

Import ReedSolomon.

(** A call of one of the three methods of a code. *)
Inductive call : Type :=
  | CallEncode (buf : seq Z)
  | CallDecode (slices : seq Slice)
  | CallRebuild (slices : seq Slice).

(** The store a call leaves, whatever it returns. *)
Definition run_call (c : Code) (cl : call) (s : store) : store :=
  match cl with
  | CallEncode buf => (EncodeAligned c buf s).1
  | CallDecode slices => (DecodeAligned c slices s).1
  | CallRebuild slices => (Rebuild c slices s).1
  end.

Definition run_calls (c : Code) (cls : seq call) (s : store) : store :=
  foldl (fun s cl => run_call c cl s) s cls.

(** The entries of the generator matrix of [c], read from the store. *)
Definition generator (c : Code) (s : store) : seq (seq Z) :=
  [seq nth [::] s l | l <- mtx c].

Lemma run_call_prefix c cl s :
  size s <= size (run_call c cl s) /\ take (size s) (run_call c cl s) = s.
Proof.
case: cl => [buf|slices|slices] /=; apply: (@hoare_prefix _ _ xpredT xpredT).
- exact: hoare_EncodeAligned.
- exact: hoare_DecodeAligned.
- exact: hoare_Rebuild.
Qed.

Lemma run_calls_prefix c cls s :
  size s <= size (run_calls c cls s) /\
  take (size s) (run_calls c cls s) = s.
Proof.
rewrite /run_calls; elim: cls s => [|cl cls IH] s /=.
  by rewrite take_size.
have [H1 H2] := run_call_prefix c cl s.
have [H3 H4] := IH (run_call c cl s).
split; first exact: leq_trans H1 H3.
by rewrite -[in RHS]H2 -[in RHS]H4 take_takel.
Qed.

(** A row of [cols] entries at address [l]. *)
Definition row_ok (cols : nat) (s : store) (l : loc) : bool :=
  (l < size s) && (size (nth [::] s l) == cols).

Lemma row_ok_mono cols s s' l :
  safe_over 0 s s' -> row_ok cols s l -> row_ok cols s' l.
Proof.
move=> [H1 _ H3] /andP [Hl Hc]; rewrite /row_ok H3 // Hc andbT.
exact: leq_trans Hl H1.
Qed.

(** The rows a run returns the addresses of are rows of the store it
    leaves. *)
Lemma mapM_rows (T : Type) cols (f : T -> Run loc) (xs : seq T) s s' r :
  (forall x s1 s2 l, f x s1 = (s2, Ok l) ->
     safe_over 0 s1 s2 /\ row_ok cols s2 l) ->
  mapM xs f s = (s', Ok r) ->
  [/\ safe_over 0 s s', all (row_ok cols s') r & size r = size xs].
Proof.
move=> Hf; elim: xs s s' r => [|x xs IH] s s' r /=.
  by case=> <- <-; split=> //; apply: safe_over_refl.
move=> H; bind_case H as l Hl at sa; bind_case H as r' Hr' at sb.
case: H => <- <-.
have [H1 H2] := Hf _ _ _ _ Hl.
have [H3 H4 H5] := IH _ _ _ Hr'.
split; first exact: safe_over_trans H1 H3.
- by rewrite /= H4 andbT; apply: row_ok_mono H3 H2.
- by rewrite /= H5.
Qed.

Lemma vandermonde_rows_shape g n k s s' r :
  vandermonde_rows g n k s = (s', Ok r) ->
  all (row_ok (Z.to_nat n) s') r /\ size r = Z.to_nat (Int.i64 (n + k)).
Proof.
rewrite /vandermonde_rows => H; bind_case H as rows Hrows at s0.
have Erows : rows = Z.to_nat (Int.i64 (n + k)).
  have [_] := lift_ok_inv Hrows.
  by rewrite /make_len; case: ifP => // _ [<-].
have [|_ H1 H2] := mapM_rows (cols := Z.to_nat n) _ H.
  move=> i s1 s2 l {}H; bind_case H as cols Hcols at sa.
  bind_case H as l' Hl' at sb; bind_case H as u' Hu' at sc; case: H => <- <-.
  have [Es Ecols] := lift_ok_inv Hcols.
  have {}Ecols : cols = Z.to_nat n.
    by move: Ecols; rewrite /make_len; case: ifP => // _ [<-].
  move: Hl'; rewrite Es /alloc => -[Es' El'].
  have Hfr : hoare 0
               (forM (iota 0 cols) (fun j => store_at l' j
                  (Galois.pow g (Z.of_nat i) (Z.of_nat j))))
               xpredT xpredT.
    by eapply hoare_forM => j; cbv beta; eapply hoare_store_at.
  have [Hsafe _] := hoare_run (s := sb) Hfr (leq0n _).
  move: Hsafe; rewrite Hu' /= => Hsafe.
  have Hsafe1 : safe_over 0 s1 sb.
    rewrite -Es'; split; rewrite ?size_rcons ?take0 //.
    by move=> i0 Hi0; rewrite nth_rcons Hi0.
  split; first exact: safe_over_trans Hsafe1 Hsafe.
  apply: row_ok_mono Hsafe _.
  by rewrite /row_ok -Es' size_rcons -El' ltnSn nth_rcons ltnn eqxx
             size_nseq Ecols eqxx.
by rewrite H2 size_iota.
Qed.

(** The generator matrix of a code [NewCode n k] returned: [n+k] rows
    of [n] entries, all in the store. *)
Lemma NewCode_shape n k s0 s c :
  NewCode n k s0 = (s, Ok c) ->
  all (row_ok (Z.to_nat n) s) (mtx c) /\
  size (mtx c) = Z.to_nat (Int.i64 (n + k)).
Proof.
rewrite /NewCode => H; bind_case H as mat Hmat at sa; case: H => <- <- /=.
move: Hmat; rewrite mtx_xform_vandermondeE mtx_vandermondeE => H.
bind_case H as mat' Hmat' at sb; bind_case H as u Hu at sc.
case: H => <- <-.
move: Hmat'; case: ifP => // _ /vandermonde_rows_shape [Hrows Hsize].
have Hx : hoare 0 (xform_loop {| Galois.m := M; Galois.p := P |} n k mat')
            xpredT xpredT.
  by apply: hoare_xform_loop => //; apply: all_leq0.
have [Hsafe _] := hoare_run (s := sb) Hx (leq0n _).
move: Hsafe; rewrite Hu /= => Hsafe; split=> //.
by apply: sub_all Hrows => l; apply: row_ok_mono.
Qed.

Lemma NewCode_rows n k s0 s c :
  NewCode n k s0 = (s, Ok c) -> all (fun l => l < size s) (mtx c).
Proof.
by move=> /NewCode_shape [H _]; apply: sub_all H => l /andP [].
Qed.

Lemma NewCode_fields n k s0 s c :
  NewCode n k s0 = (s, Ok c) -> field c = gf /\ ReedSolomon.n c = n /\ ReedSolomon.k c = k.
Proof.
by rewrite /NewCode => H; bind_case H as mat Hmat; case: H => _ <-.
Qed.

(** C10.  For a code [c] constructed by [NewCode n k], after any
    sequence of [EncodeAligned], [DecodeAligned] and [Rebuild] calls on
    it (failing calls included) every row that was in the store when
    the code was constructed is unchanged; so every entry of the
    generator matrix of [c] is unchanged, and [c] still holds the field
    descriptor, [n] and [k] that [NewCode] gave it. *)
Theorem code_immutable n k s0 s c (calls : seq call) :
  NewCode n k s0 = (s, Ok c) ->
  [/\ take (size s) (run_calls c calls s) = s,
      generator c (run_calls c calls s) = generator c s
    & field c = gf /\ ReedSolomon.n c = n /\ ReedSolomon.k c = k].
Proof.
move=> Hc; have [Hsz Hpre] := run_calls_prefix c calls s.
split=> //; last exact: NewCode_fields Hc.
rewrite /generator; apply/eq_in_map => l Hl.
have Hls : l < size s by apply: (allP (NewCode_rows Hc)).
by rewrite -[in RHS]Hpre nth_take.
Qed.

Lemma code_immutable_witness :
  let calls := [:: CallEncode abcdef; CallDecode abcdef_slices;
                   CallRebuild (take 3 abcdef_slices); CallEncode [:: 1%Z]] in
  [/\ take (size store32) (run_calls code32 calls store32) = store32,
      generator code32 (run_calls code32 calls store32)
      = generator code32 store32
    & field code32 = gf /\ ReedSolomon.n code32 = 3%Z /\ ReedSolomon.k code32 = 2%Z].
Proof. exact: (@code_immutable 3 2 [::] store32 code32 _ NewCode_3_2). Defined.

End Immutable.

(** ** Construction of a code and the size of the field *)

Section FieldSize.

Import ReedSolomon.
Local Open Scope Z_scope.

Definition only_zero_division (e : error) : bool :=
  if e is ErrZeroDivision then true else false.

Lemma size_gf : Galois.size gf = 256.
Proof. by []. Qed.

(** Past the check of the field size, [NewCode] has no way to report
    [ErrInsufficientFieldSize]. *)
Lemma NewCode_checked n k s :
  (Galois.size gf <? Int.u64 (n + k)) = false ->
  (NewCode n k s).2 <> Err ErrInsufficientFieldSize.
Proof.
move=> Hchk.
have Hm : hoare 0%N (NewCode n k) xpredT only_zero_division.
  rewrite /NewCode mtx_xform_vandermondeE mtx_vandermondeE Hchk.
  eapply (@hoare_bind _ _ _ _ _ xpredT); last by move=> ? _; apply: hoare_ret.
  eapply (@hoare_bind _ _ _ _ _ (all (leq 0%N))).
    exact: hoare_vandermonde_rows.
  move=> mtx Hmtx; eapply hoare_bind; first exact: hoare_xform_loop.
  by move=> _ _; apply: hoare_ret.
have [_] := hoare_run Hm (leq0n (seq.size s)).
by case: (NewCode n k s).2 => [c|e|] //=; case: e.
Qed.

(** C6.  For n >= 1 and k >= 0 (Go ints), constructing a code fails
    with [ErrInsufficientFieldSize] if and only if n + k exceeds the
    field size 2^8 = 256. *)
Theorem NewCode_insufficient_field (n k : Z) (s : store) :
  1 <= n < 2 ^ 63 -> 0 <= k < 2 ^ 63 ->
  (NewCode n k s).2 = Err ErrInsufficientFieldSize <-> 256 < n + k.
Proof.
move=> Hn Hk.
have Eu : Int.u64 (n + k) = n + k by rewrite /Int.u64 Z.mod_small; lia.
split.
- move=> Herr; case: (Z.ltb_spec 256 (n + k)) => // Hle.
  by case: (@NewCode_checked n k s) => //; rewrite size_gf Eu; apply/Z.ltb_ge.
- move=> Hlt; rewrite /NewCode mtx_xform_vandermondeE mtx_vandermondeE.
  rewrite size_gf Eu.
  by have -> : (256 <? n + k) = true by apply/Z.ltb_lt.
Qed.

(** Scenario S6: [NewCode 200 100] fails with [ErrInsufficientFieldSize]. *)
Lemma NewCode_insufficient_field_witness :
  (NewCode 200 100 [::]).2 = Err ErrInsufficientFieldSize <-> 256 < 200 + 100.
Proof. by apply: NewCode_insufficient_field; lia. Defined.

End FieldSize.

(** ** Runs that succeed *)

Section TotalRuns.

Import ReedSolomon.

Lemma mapM_ok (T : eqType) (A : Type) (f : T -> Run A) (h : T -> A)
      (xs : seq T) s :
  {in xs, forall x, f x s = (s, Ok (h x))} ->
  mapM xs f s = (s, Ok (map h xs)).
Proof.
elim: xs => [|x xs IH] Hf //=.
rewrite (bind_ok _ (Hf x (mem_head _ _))) (bind_ok _ (IH _)) //.
by move=> y Hy; apply: Hf; rewrite inE Hy orbT.
Qed.

Lemma forM_inv (Inv : nat -> store -> Prop) (f : nat -> Run unit) m n s :
  (forall i s1, m <= i < m + n -> Inv i s1 ->
     exists s2, f i s1 = (s2, Ok tt) /\ Inv i.+1 s2) ->
  Inv m s ->
  exists s', forM (iota m n) f s = (s', Ok tt) /\ Inv (m + n) s'.
Proof.
elim: n m s => [|n IH] m s Hf H0 /=; first by exists s; rewrite addn0.
have [|s1 [E1 H1]] := Hf m s _ H0; first by rewrite leqnn -addn1 leq_add2l.
have [|s' [E2 H2]] := IH m.+1 s1 _ H1.
  move=> i s2 /andP [Hi1 Hi2]; apply: Hf.
  by rewrite (ltnW Hi1) addnS -addSn.
by exists s'; rewrite (bind_ok _ E1) E2 addnS -addSn.
Qed.

Lemma foldM_inv (S : Type) (Inv : nat -> S -> Prop) (f : S -> nat -> Run S)
      m n st0 s :
  (forall i st, m <= i < m + n -> Inv i st ->
     exists st', f st i s = (s, Ok st') /\ Inv i.+1 st') ->
  Inv m st0 ->
  exists st', foldM (iota m n) f st0 s = (s, Ok st') /\ Inv (m + n) st'.
Proof.
elim: n m st0 => [|n IH] m st0 Hf H0 /=; first by exists st0; rewrite addn0.
have [|st1 [E1 H1]] := Hf m st0 _ H0; first by rewrite leqnn -addn1 leq_add2l.
have [|st' [E2 H2]] := IH m.+1 st1 _ H1.
  move=> i st /andP [Hi1 Hi2]; apply: Hf.
  by rewrite (ltnW Hi1) addnS -addSn.
by exists st'; rewrite (bind_ok _ E1) E2 addnS -addSn.
Qed.

(** The value of [vec_vec_dot] on vectors of one length. *)
Definition dot (g : Galois.GaloisField) (r v : seq Z) : Z :=
  foldl (fun prd xy => Galois.add g prd (Galois.mul g xy.1 xy.2)) 0%Z
        (zip r v).

Lemma vec_vec_dot_ok g r v :
  size r = size v -> Galois.vec_vec_dot g r v = Ok (dot g r v).
Proof. by rewrite /Galois.vec_vec_dot => ->; rewrite eqxx. Qed.

Lemma mtx_vec_dot_ok g A v s :
  all (row_ok (size v) s) A ->
  Galois.mtx_vec_dot g A v s
  = (s, Ok [seq dot g (nth [::] s l) v | l <- A]).
Proof.
move=> HA; apply: mapM_ok => l Hl.
have /andP [Hls /eqP Hsz] := allP HA l Hl.
by rewrite /bind /load_row Hls /lift vec_vec_dot_ok.
Qed.

Lemma at_nth (T : Type) (x0 : T) (s : seq T) i :
  i < size s -> at_ s i = Ok (nth x0 s i).
Proof.
by move=> Hi; rewrite /at_ (drop_nth x0 Hi).
Qed.

Lemma put_set_nth (T : Type) (x0 : T) (s : seq T) i v :
  i < size s -> put s i v = Ok (set_nth x0 s i v).
Proof.
move=> Hi; rewrite /put Hi; congr Ok.
apply: (@eq_from_nth _ x0).
  rewrite size_cat /= size_take Hi size_drop size_set_nth.
  rewrite addnS -addSn subnKC //; symmetry; exact/maxn_idPr.
move=> j _; rewrite nth_cat size_take Hi nth_set_nth /=.
case: (ltngtP j i) => Hj.
- by rewrite nth_take.
- by rewrite -(subnSK Hj) /= nth_drop subnKC.
- by rewrite Hj subnn.
Qed.

End TotalRuns.

(** ** What EncodeAligned computes *)

Section EncodeSpec.

Import ReedSolomon.

Variables (c : Code) (s : store).

Let nn : nat := Z.to_nat (n c).

(** Stripe [i] of the buffer, the code word [G * stripe] and the byte it
    gives to slice [j]. *)
Definition stripe_vec (buf : seq Z) (i : nat) : seq Z :=
  [seq nth 0%Z buf (i * nn + j) | j <- iota 0 nn].

Definition codeword (v : seq Z) : seq Z :=
  [seq dot (field c) (nth [::] s l) v | l <- mtx c].

Definition encoded_byte (buf : seq Z) (i j : nat) : Z :=
  byte (nth 0%Z (codeword (stripe_vec buf i)) j).

Definition encoded (buf : seq Z) : seq Slice :=
  [seq {| Index := Z.of_nat j;
          Length := Z.quot (Z.of_nat (size buf)) (n c);
          Data := [seq encoded_byte buf i j | i <- iota 0 (size buf %/ nn)] |}
  | j <- iota 0 (size (mtx c))].

Hypothesis Hn : (1 <= n c)%Z.
Hypothesis Hk : (0 <= k c)%Z.
Hypothesis Hnk : (n c + k c < 2 ^ 63)%Z.
Hypothesis Hrows : all (row_ok nn s) (mtx c).
Hypothesis Hsize : size (mtx c) = Z.to_nat (n c + k c).

Lemma nn_gt0 : 0 < nn.
Proof. by apply/ltP; rewrite /nn; lia. Qed.

Lemma nnE : Z.of_nat nn = n c.
Proof. by rewrite /nn Z2Nat.id; lia. Qed.

Lemma size_stripe_vec buf i : size (stripe_vec buf i) = nn.
Proof. by rewrite size_map size_iota. Qed.

Lemma size_codeword v : size (codeword v) = size (mtx c).
Proof. by rewrite size_map. Qed.

(** The slices while stripe [i] is being written: positions below [j]
    already hold the byte of stripe [i]. *)
Let data_upto (buf : seq Z) (i j : nat) : seq Z :=
  mkseq (fun t => if t < i then encoded_byte buf t j else 0%Z)
        (size buf %/ nn).

Let slices_at (buf : seq Z) (i j : nat) : seq Slice :=
  mkseq (fun j' => {| Index := Z.of_nat j';
                      Length := Z.quot (Z.of_nat (size buf)) (n c);
                      Data := data_upto buf (if j' < j then i.+1 else i) j' |})
        (size (mtx c)).

Let empty_slice : Slice := {| Index := 0; Length := 0; Data := [::] |}.

Lemma encode_put buf i j :
  i < size buf %/ nn -> j < size (mtx c) ->
  put_data (slices_at buf i j) j i (encoded_byte buf i j)
  = Ok (slices_at buf i j.+1).
Proof.
move=> Hi Hj; rewrite /put_data (at_nth empty_slice) ?size_mkseq //=.
rewrite nth_mkseq // ltnn (put_set_nth 0%Z) ?size_mkseq //=.
rewrite (put_set_nth empty_slice) ?size_mkseq //; congr Ok.
apply: (@eq_from_nth _ empty_slice).
  by rewrite size_set_nth !size_mkseq; apply/maxn_idPr.
move=> t; rewrite size_set_nth size_mkseq => Ht.
have {}Ht : t < size (mtx c) by move: Ht; rewrite (maxn_idPr Hj).
rewrite nth_set_nth /= !nth_mkseq // ltnS.
case: (eqVneq t j) => [->|Hne]; last first.
  by rewrite [t <= j]leq_eqVlt (negbTE Hne).
rewrite leqnn; congr (Build_Slice _ _ _).
apply: (@eq_from_nth _ 0%Z).
  by rewrite size_set_nth !size_mkseq; apply/maxn_idPr.
move=> u; rewrite size_set_nth size_mkseq => Hu.
have {}Hu : u < size buf %/ nn by move: Hu; rewrite (maxn_idPr Hi).
rewrite nth_set_nth /= !nth_mkseq // ltnS.
case: (eqVneq u i) => [->|Hne]; first by rewrite leqnn.
by rewrite [u <= i]leq_eqVlt (negbTE Hne).
Qed.

Lemma encode_stripe buf i :
  nn %| size buf -> i < size buf %/ nn ->
  mapM (iota 0 nn) (fun j => lift (at_ buf (i * nn + j))) s
  = (s, Ok (stripe_vec buf i)).
Proof.
move=> Hdiv Hi; apply: mapM_ok => j; rewrite mem_iota add0n /= => Hj.
rewrite /lift (at_nth 0%Z) //.
rewrite -(divnK Hdiv).
apply: (@leq_trans (i * nn + nn)); first by rewrite ltn_add2l.
by rewrite addnC -mulSn leq_mul2r Hi orbT.
Qed.

(** On an aligned buffer [EncodeAligned] returns the slices [encoded]
    and leaves the store as it was. *)
Lemma EncodeAligned_ok buf :
  nn %| size buf -> EncodeAligned c buf s = (s, Ok (encoded buf)).
Proof.
move=> Hdiv; rewrite /EncodeAligned.
have -> : (n c =? 0)%Z = false by apply/Z.eqb_neq; lia.
have Elen : Z.of_nat (size buf) = (Z.of_nat (size buf %/ nn) * n c)%Z.
  by rewrite -{1}(divnK Hdiv) -nnE -Nat2Z.inj_mul multE.
have -> : negb (Z.rem (Z.of_nat (size buf)) (n c) =? 0)%Z = false.
  by apply/negbF/Z.eqb_eq; rewrite Elen Z.rem_mul //; lia.
have Ens : make_len (Int.i64 (n c + k c)) = Ok (size (mtx c)).
  have -> : Int.i64 (n c + k c) = (n c + k c)%Z by apply: i64_small; lia.
  by rewrite Hsize /make_len; case: Z.ltb_spec => //; lia.
have Eslen : make_len (Z.quot (Z.of_nat (size buf)) (n c))
             = Ok (size buf %/ nn).
  have -> : Z.quot (Z.of_nat (size buf)) (n c) = Z.of_nat (size buf %/ nn).
    by rewrite Elen Z.quot_mul //; lia.
  exact: make_len_nat.
have Ecols : make_len (n c) = Ok nn by rewrite -nnE make_len_nat.
cbv iota; rewrite Ens bind_lift_ok Eslen bind_lift_ok Ecols bind_lift_ok.
set F := (X in foldM _ X _ _); set init := (X in foldM _ _ X _).
have -> : init = slices_at buf 0 0.
  rewrite /init /slices_at /mkseq; apply/eq_in_map => j; rewrite mem_iota add0n /= => Hj.
  congr (Build_Slice _ _ _).
  apply: (@eq_from_nth _ 0%Z); first by rewrite size_nseq size_mkseq.
  by move=> t; rewrite size_nseq => Ht; rewrite nth_nseq Ht nth_mkseq.
have [st' [-> ->]] : exists st',
    foldM (iota 0 (size buf %/ nn)) F (slices_at buf 0 0) s = (s, Ok st')
    /\ st' = slices_at buf (0 + size buf %/ nn) 0.
  apply: (@foldM_inv _ (fun i st => st = slices_at buf i 0)) => //.
  move=> i st /andP [_ Hi] ->; rewrite add0n in Hi.
  exists (slices_at buf i.+1 0); rewrite /F.
  rewrite (bind_ok _ (encode_stripe Hdiv Hi)).
  rewrite (bind_ok _ (mtx_vec_dot_ok _ _)); first by rewrite size_stripe_vec.
  set F' := (X in foldM _ X _ _).
  have [st'' [-> ->]] : exists st'',
      foldM (iota 0 (size (mtx c))) F' (slices_at buf i 0) s = (s, Ok st'')
      /\ st'' = slices_at buf i (0 + size (mtx c)).
    apply: (@foldM_inv _ (fun j st => st = slices_at buf i j)) => //.
    move=> j st2 /andP [_ Hj] ->; rewrite add0n in Hj.
    exists (slices_at buf i j.+1); split=> //; rewrite /F'.
    rewrite (at_nth 0%Z) ?size_map // bind_lift_ok.
    by rewrite -/(codeword _) -/(encoded_byte buf i j) /lift encode_put.
  split=> //; rewrite add0n; congr (_, Ok _).
  rewrite /slices_at /mkseq; apply/eq_in_map => j.
  by rewrite mem_iota add0n /= => ->.
congr (_, Ok _); rewrite add0n /slices_at /encoded /mkseq.
apply/eq_in_map => j; rewrite mem_iota add0n /= => Hj.
congr (Build_Slice _ _ _); rewrite /data_upto /mkseq; apply/eq_in_map => t.
by rewrite mem_iota add0n /= => ->.
Qed.

End EncodeSpec.

(** ** The slices EncodeAligned returns *)

Section EncodeShape.

Import ReedSolomon.

Lemma Z_of_nat_modn (a b : nat) :
  0 < b -> (Z.of_nat a mod Z.of_nat b)%Z = Z.of_nat (a %% b).
Proof.
move=> Hb; symmetry; apply: (Z.mod_unique_pos _ _ (Z.of_nat (a %/ b))).
  by split; [lia | apply/Nat2Z.inj_lt/ltP; rewrite ltn_pmod].
by rewrite {1}(divn_eq a b) -multE -plusE; lia.
Qed.

Lemma Z_of_nat_divn (a b : nat) :
  0 < b -> (Z.of_nat a / Z.of_nat b)%Z = Z.of_nat (a %/ b).
Proof.
move=> Hb; symmetry; apply: (Z.div_unique_pos _ _ _ (Z.of_nat (a %% b))).
  by split; [lia | apply/Nat2Z.inj_lt/ltP; rewrite ltn_pmod].
by rewrite {1}(divn_eq a b) -multE -plusE; lia.
Qed.

(** A code that [NewCode] returned fits the field. *)
Lemma NewCode_ok_bound n k s0 s c :
  NewCode n k s0 = (s, Ok c) -> (Int.u64 (n + k) <= 256)%Z.
Proof.
rewrite /NewCode mtx_xform_vandermondeE mtx_vandermondeE.
by case: Z.ltb_spec.
Qed.

(** C8.  For a code [c] built by [NewCode n k] (n >= 1, k >= 0) and a
    buffer [buf], in any store that still has the rows of the code:
    [EncodeAligned] fails with [ErrMisaligned] if and only if
    [len(buf) mod n <> 0]; otherwise it returns exactly [n + k] slices,
    the slice at position [i] has [Index] i, [Length] [len(buf) / n]
    and [len(buf) / n] bytes of data. *)
Theorem EncodeAligned_slices n k s0 s c s' (buf : seq Z) :
  (1 <= n < 2 ^ 63)%Z -> (0 <= k < 2 ^ 63)%Z ->
  NewCode n k s0 = (s, Ok c) -> safe_over 0 s s' ->
  let len := Z.of_nat (size buf) in
  ((EncodeAligned c buf s').2 = Err ErrMisaligned <-> (len mod n)%Z <> 0%Z)
  /\ ((len mod n)%Z = 0%Z ->
      exists slices,
        [/\ (EncodeAligned c buf s').2 = Ok slices,
            Z.of_nat (size slices) = (n + k)%Z
          & forall i d, i < size slices ->
              [/\ Index (nth d slices i) = Z.of_nat i,
                  Length (nth d slices i) = (len / n)%Z
                & Z.of_nat (size (Data (nth d slices i))) = (len / n)%Z]]).
Proof.
move=> Hn Hk Hc Hs' len.
have [Ef [En Ek]] := NewCode_fields Hc.
have [Hrows Hsize] := NewCode_shape Hc.
have Hb := NewCode_ok_bound Hc.
have Hnk : (n + k <= 256)%Z.
  by move: Hb; rewrite /Int.u64 Z.mod_small; lia.
have Hnn : 0 < Z.to_nat n by apply/ltP; lia.
have Enn : Z.of_nat (Z.to_nat n) = n by rewrite Z2Nat.id; lia.
have Emod : (len mod n)%Z = Z.of_nat (size buf %% Z.to_nat n).
  by rewrite -Z_of_nat_modn // Enn.
have Ediv : (len / n)%Z = Z.of_nat (size buf %/ Z.to_nat n).
  by rewrite -Z_of_nat_divn // Enn.
have Hok : (len mod n)%Z = 0%Z ->
    EncodeAligned c buf s' = (s', Ok (encoded c s' buf)).
  move=> H0; apply: EncodeAligned_ok; rewrite ?En ?Ek; try lia.
  - by apply: sub_all Hrows => l; apply: row_ok_mono.
  - by rewrite Hsize i64_small; lia.
  - by rewrite /dvdn; apply/eqP/Nat2Z.inj; rewrite -Emod H0.
split.
  split=> [Herr H0|Hne]; first by move: Herr; rewrite (Hok H0).
  rewrite /EncodeAligned En.
  have -> : (n =? 0)%Z = false by apply/Z.eqb_neq; lia.
  rewrite Z.rem_mod_nonneg; try lia.
  by have -> : (Z.of_nat (size buf) mod n =? 0)%Z = false by apply/Z.eqb_neq.
move=> H0; exists (encoded c s' buf); rewrite (Hok H0) /encoded.
split=> //; first by rewrite size_map size_iota Hsize i64_small; lia.
move=> i d; rewrite size_map size_iota => Hi.
rewrite (nth_map 0) ?size_iota // nth_iota // add0n /= size_map size_iota.
by rewrite En Z.quot_div_nonneg; try lia.
Qed.

(** The 3+2 code on the six bytes of ["abcdef"]: five slices of two
    bytes. *)
Lemma EncodeAligned_slices_witness :
  let len := Z.of_nat (size abcdef) in
  ((EncodeAligned code32 abcdef store32).2 = Err ErrMisaligned
   <-> (len mod 3)%Z <> 0%Z)
  /\ ((len mod 3)%Z = 0%Z ->
      exists slices,
        [/\ (EncodeAligned code32 abcdef store32).2 = Ok slices,
            Z.of_nat (size slices) = (3 + 2)%Z
          & forall i d, i < size slices ->
              [/\ Index (nth d slices i) = Z.of_nat i,
                  Length (nth d slices i) = (len / 3)%Z
                & Z.of_nat (size (Data (nth d slices i))) = (len / 3)%Z]]).
Proof.
apply: (@EncodeAligned_slices 3 2 [::] store32 code32 store32 abcdef).
- by [].
- by [].
- exact: NewCode_3_2.
- exact: safe_over_refl.
Defined.

End EncodeShape.
